(** * Sparse binary Merkle trees

    A shallow embedding of [eth2/_utils/merkle/sparse.py]: the table of
    empty-subtree hashes, the tree builder [calc_merkle_tree_from_leaves]
    and the proof verifier [verify_merkle_proof], followed by the
    properties of the three that the specification states.

    Python [bytes] are lists of bytes, tuples are lists, [int] is [Z], and
    an exception is the [Raise] branch of a small error monad. *)

From Stdlib Require Import ZArith Lia ZifyNat Strings.Byte.
From stdpp Require Import base list.

Set Default Goal Selector "!".

#[local] Ltac Zify.zify_post_hook ::= Z.to_euclidean_division_equations.

(** ** Exceptions and the error monad *)

(** The exceptions the module can raise: [ValueError] is raised by hand in
    [calc_merkle_tree_from_leaves], [AssertionError] by the [assert]
    statements, [IndexError] by a subscript that is out of range. *)
Inductive exception : Set :=
| ValueError
| AssertionError
| IndexError.

Inductive result (A : Type) : Type :=
| Ok (a : A)
| Raise (e : exception).

Arguments Ok {A} a.
Arguments Raise {A} e.

Definition bind {A B : Type} (c : result A) (k : A → result B) : result B :=
  match c with
  | Ok a => k a
  | Raise e => Raise e
  end.

Notation "'let*' x ':=' c 'in' k" := (bind c (fun x => k))
  (at level 10, x name, c at level 100, k at level 200).

(** [seq[i]] for a non-negative [i]. *)
Definition getitem {A : Type} (l : list A) (i : nat) : result A :=
  match l !! i with
  | Some a => Ok a
  | None => Raise IndexError
  end.

(** [for i in xs: s = body(i, s)], stopping at the first exception. *)
Fixpoint for_in {S : Type} (xs : list nat) (body : nat → S → result S) (s : S)
  : result S :=
  match xs with
  | [] => Ok s
  | i :: xs' => let* s' := body i s in for_in xs' body s'
  end.

(** [range(n)]. *)
Definition range (n : nat) : list nat := seq 0 n.

(** ** Byte strings *)

Abbreviation Hash32 := (list byte) (only parsing).
Abbreviation MerkleTree := (list (list (list byte))) (only parsing).
Abbreviation MerkleProof := (list (list byte)) (only parsing).

(** [a == b] on [bytes]. *)
Fixpoint bytes_eqb (a b : list byte) : bool :=
  match a, b with
  | [], [] => true
  | x :: a', y :: b' => Byte.eqb x y && bytes_eqb a' b'
  | _, _ => false
  end.

(** [take(n, iterate(f, x))] of cytoolz: the first [n] elements of the
    unbounded sequence [x, f(x), f(f(x)), ...]. *)
Fixpoint take_iterate {A : Type} (n : nat) (f : A → A) (x : A) : list A :=
  match n with
  | O => []
  | S n' => x :: take_iterate n' f (f x)
  end.

(** Modelled from the spec: [update_tuple_item] of [eth2._utils.tuple], the
    replace-one-element-in-an-immutable-sequence helper.  An index that is
    out of range raises. *)
Definition update_tuple_item {A : Type} (tuple_data : list A) (index : nat)
    (new_value : A) : result (list A) :=
  if decide (index < length tuple_data)
  then Ok (<[index := new_value]> tuple_data)
  else Raise IndexError.

(** A stand-in for the hash primitive, with a 32-byte output, on which the
    definitions below can be run: a polynomial checksum of the input, kept
    to 256 bits and written out as 32 bytes, low byte first.  It is not
    collision resistant, and no property below needs it to be. *)
Fixpoint N_to_bytes (n : nat) (x : N) : list byte :=
  match n with
  | O => []
  | S n' =>
      default x00 (Byte.of_N (N.land x 255)) :: N_to_bytes n' (N.shiftr x 8)
  end.

Definition demo_hash (data : list byte) : list byte :=
  N_to_bytes 32
    (foldl (λ acc b, N.land (acc * 257 + Byte.to_N b + 1) (N.ones 256)) 0%N data).

(** Three leaves, and [n] leaves that are all zero. *)
Definition demo_leaves : list (list byte) :=
  [replicate 32 x0a; replicate 32 x0b; replicate 32 x0c].

Definition zero_leaves (n : nat) : list (list byte) :=
  replicate n (replicate 32 x00).


Definition demo_items : list (list byte) := [[x61]; [x62]; [x63]].

Section Sparse.

(** [hash_eth2] of [eth2.beacon._utils.hash]: the hash primitive, of which
    nothing is assumed. *)
Variable hash_eth2 : list byte → list byte.

(** Modelled from the spec: [_calc_parent_hash] of [.common],
    parent hash = [H(left || right)]. *)
Definition _calc_parent_hash (left_node right_node : Hash32) : Hash32 :=
  hash_eth2 (left_node ++ right_node).

(** Modelled from the spec: [_hash_layer] of [.common], the parent layer
    obtained by hashing adjacent pairs left to right,
    [parent[j] = H(layer[2j] || layer[2j+1])].  A trailing element
    without a partner has no parent. *)
Fixpoint _hash_layer (layer : list Hash32) : list Hash32 :=
  match layer with
  | left_node :: right_node :: rest =>
      _calc_parent_hash left_node right_node :: _hash_layer rest
  | _ => []
  end.

(** Modelled from the spec: [get_root] of [.common], layer 0's sole
    digest. *)
Definition get_root (tree : MerkleTree) : result Hash32 :=
  let* layer := getitem tree 0 in
  if length layer =? 1 then getitem layer 0 else Raise AssertionError.

Definition TreeDepth : nat := 32.

Definition EmptyNodeHashes : list Hash32 :=
  take_iterate TreeDepth
    (λ node_hash, hash_eth2 (node_hash ++ node_hash))
    (replicate 32 x00).

(** The body of the loop of [verify_merkle_proof]. *)
Definition verify_step (index : Z) (proof : MerkleProof) (i : nat)
    (value : Hash32) : result Hash32 :=
  let* sibling := getitem proof i in
  if negb ((index `div` 2 ^ Z.of_nat i) `mod` 2 =? 0)%Z
  then Ok (hash_eth2 (sibling ++ value))
  else Ok (hash_eth2 (value ++ sibling)).

Definition verify_merkle_proof (root leaf : Hash32) (index : Z)
    (proof : MerkleProof) : result bool :=
  if negb (length proof =? TreeDepth) then Raise AssertionError else
  let* value := for_in (range TreeDepth) (verify_step index proof) leaf in
  Ok (bytes_eqb value root).

(** The body of the loop of [calc_merkle_tree_from_leaves]. *)
Definition calc_step (i : nat) (tree : MerkleTree) : result MerkleTree :=
  let* layer := getitem tree 0 in
  let* tree :=
    if length layer `mod` 2 =? 1
    then
      let* layer := getitem tree 0 in
      let* empty := getitem EmptyNodeHashes i in
      update_tuple_item tree 0 (layer ++ [empty])
    else Ok tree in
  let* layer := getitem tree 0 in
  Ok (_hash_layer layer :: tree).

Definition calc_merkle_tree_from_leaves (leaves : list Hash32)
  : result MerkleTree :=
  if length leaves =? 0 then Raise ValueError else
  for_in (range TreeDepth) calc_step [leaves].

Definition calc_merkle_tree (items : list (list byte)) : result MerkleTree :=
  let leaves := hash_eth2 <$> items in
  calc_merkle_tree_from_leaves leaves.

Definition get_merkle_root_from_items (items : list (list byte))
  : result Hash32 :=
  let* tree := calc_merkle_tree items in get_root tree.

Definition get_merkle_root (leaves : list Hash32) : result Hash32 :=
  let* tree := calc_merkle_tree_from_leaves leaves in get_root tree.

(** Modelled from the spec: the proof-extraction utility
    ([get_merkle_proof] of [.common]) reads one sibling digest per level,
    from the leaf level upward: entry [i] is
    [tree[TreeDepth - i][(index >> i) ^ 1]]. *)
Definition sibling_index (index : Z) (i : nat) : nat :=
  Z.to_nat (Z.lxor (index ≫ Z.of_nat i) 1).

Fixpoint read_siblings (tree : MerkleTree) (index : Z) (levels : list nat)
  : result MerkleProof :=
  match levels with
  | [] => Ok []
  | i :: levels' =>
      let* layer := getitem tree (TreeDepth - i) in
      let* sibling := getitem layer (sibling_index index i) in
      let* rest := read_siblings tree index levels' in
      Ok (sibling :: rest)
  end.

Definition get_merkle_proof (tree : MerkleTree) (index : Z)
  : result MerkleProof :=
  read_siblings tree index (range TreeDepth).

(** ** The functions behind the two loops

    What the loops compute, as structural recursions: these are the
    definitions the proofs below work with, and each is shown equal to
    the loop it stands for ([verify_loop], [calc_loop],
    [read_siblings_levels]). *)

(** One round of [verify_merkle_proof] per proof entry; the index is
    halved at each level, so that the bit tested is always bit 0. *)
Fixpoint climb (index : Z) (proof : MerkleProof) (value : Hash32)
  : Hash32 :=
  match proof with
  | [] => value
  | sibling :: proof' =>
      climb (index `div` 2) proof'
        (if negb (index `mod` 2 =? 0)%Z
         then hash_eth2 (sibling ++ value)
         else hash_eth2 (value ++ sibling))
  end.

(** The padding step of [calc_merkle_tree_from_leaves]. *)
Definition pad (empty : Hash32) (layer : list Hash32) : list Hash32 :=
  if length layer `mod` 2 =? 1 then layer ++ [empty] else layer.

(** The layers of the tree from the leaves upward: one padded layer per
    padding digest, then the layer on top, which is left as it is. *)
Fixpoint levels (empties : list Hash32) (layer : list Hash32)
  : list (list Hash32) :=
  match empties with
  | [] => [layer]
  | empty :: empties' =>
      pad empty layer :: levels empties' (_hash_layer (pad empty layer))
  end.

(** The position next to [k] in its pair: [k ^ 1]. *)
Definition sibling (k : nat) : nat :=
  if k `mod` 2 =? 0 then k + 1 else k - 1.

(** The siblings of position [k] along the first [n] of the layers
    [lvls], which are ordered from the leaves upward. *)
Fixpoint siblings (lvls : list (list Hash32)) (k n : nat) {struct n}
  : option MerkleProof :=
  match n with
  | O => Some []
  | S n' =>
      match lvls with
      | [] => None
      | layer :: lvls' =>
          match layer !! sibling k, siblings lvls' (k `div` 2) n' with
          | Some s, Some rest => Some (s :: rest)
          | _, _ => None
          end
      end
  end.

(** ** The error monad and the loops *)

Lemma getitem_Some {A : Type} (l : list A) (i : nat) (a : A) :
  l !! i = Some a → getitem l i = Ok a.
Proof. unfold getitem. by intros ->. Qed.

Lemma for_in_ext {S : Type} (xs : list nat) (f g : nat → S → result S) s :
  (∀ i s', i ∈ xs → f i s' = g i s') → for_in xs f s = for_in xs g s.
Proof.
  revert s. induction xs as [|x xs IH]; intros s Hfg; [done |].
  cbn [for_in]. rewrite (Hfg x s) by apply list_elem_of_here.
  destruct (g x s) as [s' | e]; cbn [bind]; [| done].
  apply IH. intros i s'' Hi. apply Hfg. by apply list_elem_of_further.
Qed.

Lemma bytes_eqb_eq (a b : list byte) : bytes_eqb a b = true ↔ a = b.
Proof.
  revert b. induction a as [|x a IH]; intros [|y b]; cbn [bytes_eqb];
    try (split; [discriminate | congruence]); [done |].
  rewrite andb_true_iff, IH. split.
  - intros [Hxy ->]. by rewrite (byte_dec_bl _ _ Hxy).
  - intros [= -> ->]. split; [by apply byte_dec_lb | done].
Qed.

(** ** The table of empty-subtree hashes *)

Lemma take_iterate_length {A : Type} (n : nat) (f : A → A) (x : A) :
  length (take_iterate n f x) = n.
Proof. revert x. induction n as [|n IH]; intros x; cbn; [done | by rewrite IH]. Qed.

Lemma take_iterate_lookup {A : Type} (n : nat) (f : A → A) (x : A) (i : nat) :
  i < n → take_iterate n f x !! i = Some (Nat.iter i f x).
Proof.
  revert x i. induction n as [|n IH]; intros x [|i] Hi; try lia; [done |].
  cbn [take_iterate]. rewrite lookup_cons. rewrite IH by lia.
  by rewrite <- Nat.iter_succ_r.
Qed.

Lemma EmptyNodeHashes_length : length EmptyNodeHashes = TreeDepth.
Proof. apply take_iterate_length. Qed.

Lemma EmptyNodeHashes_0 : EmptyNodeHashes !! 0 = Some (replicate 32 x00).
Proof. unfold EmptyNodeHashes. by rewrite take_iterate_lookup by (unfold TreeDepth; lia). Qed.

(** C3. [EmptyNodeHashes] holds exactly 32 digests; entry 0 is the 32
    zero bytes themselves, not their hash; and each later entry [i], for
    [1 <= i < 32], is the hash of entry [i - 1] concatenated with
    itself. *)
Theorem EmptyNodeHashes_table :
  length EmptyNodeHashes = 32
  ∧ EmptyNodeHashes !! 0 = Some (replicate 32 x00)
  ∧ ∀ i, 1 ≤ i < 32 →
      ∃ previous,
        EmptyNodeHashes !! (i - 1) = Some previous
        ∧ EmptyNodeHashes !! i = Some (hash_eth2 (previous ++ previous)).
Proof.
  split; [apply EmptyNodeHashes_length |].
  split; [apply EmptyNodeHashes_0 |].
  intros [|j] Hj; [lia |]. replace (S j - 1) with j by lia.
  unfold EmptyNodeHashes.
  rewrite !take_iterate_lookup by (unfold TreeDepth; lia).
  eexists. split; [done |]. by rewrite Nat.iter_succ.
Qed.

(** ** The verifier *)

Lemma verify_step_Some index proof i value s :
  proof !! i = Some s →
  verify_step index proof i value =
    Ok (if negb ((index `div` 2 ^ Z.of_nat i) `mod` 2 =? 0)%Z
        then hash_eth2 (s ++ value)
        else hash_eth2 (value ++ s)).
Proof.
  intros Hs. unfold verify_step. rewrite (getitem_Some _ _ _ Hs).
  cbn [bind]. by destruct (negb _).
Qed.

(** The loop of [verify_merkle_proof], from any level [s], is [climb]. *)
Lemma verify_loop index proof d : ∀ s value,
  s + d ≤ length proof →
  for_in (seq s d) (verify_step index proof) value =
    Ok (climb (index `div` 2 ^ Z.of_nat s) (take d (drop s proof)) value).
Proof.
  induction d as [|d IH]; intros s value Hlen; [done |].
  destruct (lookup_lt_is_Some_2 proof s) as [p Hp]; [lia |].
  cbn [seq for_in]. rewrite (verify_step_Some _ _ _ _ _ Hp). cbn [bind].
  rewrite IH by lia. rewrite (drop_S _ _ _ Hp). rewrite firstn_cons.
  cbn [climb]. do 2 f_equal.
  rewrite Nat2Z.inj_succ, Z.pow_succ_r by lia.
  rewrite (Z.mul_comm 2), <- Z.div_div by lia. done.
Qed.

Lemma verify_merkle_proof_climb root leaf index proof :
  length proof = TreeDepth →
  verify_merkle_proof root leaf index proof =
    Ok (bytes_eqb (climb index proof leaf) root).
Proof.
  intros Hlen. unfold verify_merkle_proof, range.
  rewrite Hlen, Nat.eqb_refl. cbn [negb].
  rewrite verify_loop by lia. cbn [bind].
  rewrite drop_0, <- Hlen, firstn_all. cbn [Z.of_nat].
  by rewrite Z.pow_0_r, Z.div_1_r.
Qed.

Lemma verify_merkle_proof_assert root leaf index proof :
  length proof ≠ TreeDepth →
  verify_merkle_proof root leaf index proof = Raise AssertionError.
Proof.
  intros Hlen. unfold verify_merkle_proof.
  by destruct (Nat.eqb_spec (length proof) TreeDepth).
Qed.

(** Bit [i] of the index, as the loop reads it, for [i] below 32, is the
    same bit of the index reduced modulo [2^32]. *)
Lemma verify_step_mod index proof i value :
  i < TreeDepth →
  verify_step index proof i value =
    verify_step (index `mod` 2 ^ 32) proof i value.
Proof.
  intros Hi. unfold verify_step. destruct (getitem proof i); [| done].
  cbn [bind]. rewrite <- !Z.testbit_spec' by lia.
  rewrite Z.mod_pow2_bits_low; [done |]. unfold TreeDepth in Hi. lia.
Qed.

(** C6. The bits of the index beyond position 31 are ignored: with a
    proof of length 32 and a non-negative index, the verifier returns for
    [index] what it returns for [index mod 2^32], and it does return a
    boolean: no index makes it raise. *)
Theorem verify_merkle_proof_index_high_bits root leaf index proof :
  (0 ≤ index)%Z →
  length proof = 32 →
  verify_merkle_proof root leaf index proof =
    verify_merkle_proof root leaf (index `mod` 2 ^ 32) proof
  ∧ ∃ b, verify_merkle_proof root leaf index proof = Ok b.
Proof.
  intros _ Hlen. split.
  - unfold verify_merkle_proof.
    destruct (negb (length proof =? TreeDepth)); [reflexivity |].
    rewrite (for_in_ext (range TreeDepth) (verify_step index proof)
               (verify_step (index `mod` 2 ^ 32) proof)); [reflexivity |].
    intros i value Hi. apply verify_step_mod.
    unfold range in Hi. apply elem_of_seq in Hi. lia.
  - eexists. by apply verify_merkle_proof_climb.
Qed.

(** C7. The verifier raises exactly when the proof does not hold 32
    entries, and what it raises then is the [AssertionError] of its
    [assert] (the specification's InvalidProofLengthError).  With 32
    entries it returns a boolean, whatever the root, the leaf, the index
    and the entries are: [true] when the climb from the leaf ends at the
    root and [false] when it does not. *)
Theorem verify_merkle_proof_raises root leaf index proof :
  (verify_merkle_proof root leaf index proof = Raise AssertionError
   ↔ length proof ≠ 32)
  ∧ ((∃ e, verify_merkle_proof root leaf index proof = Raise e)
     ↔ length proof ≠ 32)
  ∧ ((∃ b, verify_merkle_proof root leaf index proof = Ok b)
     ↔ length proof = 32)
  ∧ (verify_merkle_proof root leaf index proof = Ok true
     ↔ length proof = 32 ∧ climb index proof leaf = root)
  ∧ (verify_merkle_proof root leaf index proof = Ok false
     ↔ length proof = 32 ∧ climb index proof leaf ≠ root).
Proof.
  destruct (Nat.eq_dec (length proof) 32) as [Hlen | Hlen].
  - rewrite (verify_merkle_proof_climb _ _ _ _ Hlen).
    pose proof (bytes_eqb_eq (climb index proof leaf) root) as Heq.
    split; [split; [discriminate | tauto] |].
    split; [split; [intros [e [=]] | tauto] |].
    split; [split; [tauto | intros _; by eexists] |].
    split; split.
    + intros [= Hb]. split; [done | by apply Heq].
    + intros [_ Hr]. f_equal. by apply Heq.
    + intros [= Hb]. split; [done |]. intros Hr. apply Heq in Hr. congruence.
    + intros [_ Hr]. f_equal. apply not_true_is_false. intros Hb.
      by apply Hr, Heq.
  - rewrite (verify_merkle_proof_assert _ _ _ _ Hlen).
    split; [tauto |].
    split; [split; [tauto | intros _; by eexists] |].
    split; [split; [intros [b [=]] | tauto] |].
    split; (split; [discriminate | tauto]).
Qed.

(** ** Layers *)

Lemma pairs_ind {A : Type} (P : list A → Prop) :
  P [] → (∀ a, P [a]) → (∀ a b l, P l → P (a :: b :: l)) → ∀ l, P l.
Proof.
  intros Hnil Hone Hcons l.
  cut (P l ∧ ∀ a, P (a :: l)); [tauto |].
  induction l as [|b l [IH1 IH2]]; [by split |].
  split; [apply IH2 |]. intros a. by apply Hcons.
Qed.

Lemma _hash_layer_length layer :
  length (_hash_layer layer) = length layer `div` 2.
Proof.
  induction layer as [| a | a b layer IH] using pairs_ind; [done | done |].
  cbn [_hash_layer length]. rewrite IH. lia.
Qed.

Lemma _hash_layer_lookup layer : ∀ j a b,
  layer !! (2 * j) = Some a →
  layer !! (2 * j + 1) = Some b →
  _hash_layer layer !! j = Some (hash_eth2 (a ++ b)).
Proof.
  induction layer as [| x | x y layer IH] using pairs_ind; intros j a b Ha Hb.
  - by rewrite lookup_nil in Ha.
  - replace (2 * j + 1) with (S (2 * j)) in Hb by lia.
    by rewrite lookup_cons, lookup_nil in Hb.
  - destruct j as [|j].
    + cbn in Ha, Hb. injection Ha as ->. injection Hb as ->. done.
    + replace (2 * S j) with (S (S (2 * j))) in Ha by lia.
      replace (2 * S j + 1) with (S (S (2 * j + 1))) in Hb by lia.
      cbn [_hash_layer]. rewrite lookup_cons. rewrite !lookup_cons in Ha, Hb.
      by apply IH.
Qed.

Lemma pad_length empty layer :
  length (pad empty layer) = length layer + length layer `mod` 2.
Proof.
  unfold pad. destruct (Nat.eqb_spec (length layer `mod` 2) 1).
  - rewrite length_app. cbn [length]. lia.
  - lia.
Qed.

Lemma pad_lookup empty layer k v :
  layer !! k = Some v → pad empty layer !! k = Some v.
Proof.
  intros Hk. unfold pad. destruct (_ =? _); [| done].
  by apply lookup_app_l_Some.
Qed.

Lemma levels_length empties : ∀ layer,
  length (levels empties layer) = S (length empties).
Proof.
  induction empties as [|e empties IH]; intros layer; [done |].
  cbn [levels length]. by rewrite IH.
Qed.

(** Every layer but the top one has been padded to an even length. *)
Lemma levels_lookup_even empties : ∀ layer i l,
  i < length empties →
  levels empties layer !! i = Some l →
  length l `mod` 2 = 0.
Proof.
  induction empties as [|e empties IH]; intros layer i l Hi Hl;
    cbn [length] in Hi; [lia |].
  cbn [levels] in Hl. destruct i as [|i].
  - injection Hl as <-. rewrite pad_length. lia.
  - rewrite lookup_cons in Hl. eapply (IH _ i); [lia | exact Hl].
Qed.

(** The length of the top layer: the number of leaves divided by
    [2 ^ depth], rounded up. *)
Lemma levels_top_length empties : ∀ layer top (j : Z),
  levels empties layer !! length empties = Some top →
  (2 ^ Z.of_nat (length empties) * (j - 1) < Z.of_nat (length layer)
   ≤ 2 ^ Z.of_nat (length empties) * j)%Z →
  Z.of_nat (length top) = j.
Proof.
  induction empties as [|e empties IH]; intros layer top j Htop Hj.
  - cbn in Htop. injection Htop as <-. cbn [length Z.of_nat] in Hj. lia.
  - cbn [length levels] in Htop. rewrite lookup_cons in Htop.
    apply (IH _ _ j) in Htop; [done |].
    rewrite _hash_layer_length, pad_length.
    cbn [length] in Hj. rewrite Nat2Z.inj_succ, Z.pow_succ_r in Hj by lia.
    set (A := (2 ^ Z.of_nat (length empties))%Z) in *.
    assert (0 < A)%Z by (apply Z.pow_pos_nonneg; lia).
    nia.
Qed.

Lemma levels_head empties layer e :
  empties !! 0 = Some e → head (levels empties layer) = Some (pad e layer).
Proof. destruct empties as [|x empties]; [done |]. by intros [= ->]. Qed.

Lemma levels_lookup_1 empties layer a b :
  empties !! 0 = Some a →
  empties !! 1 = Some b →
  levels empties layer !! 1 = Some (pad b (_hash_layer (pad a layer))).
Proof.
  destruct empties as [|x [|y empties]]; [done | done |].
  by intros [= ->] [= ->].
Qed.

Lemma even_mod_2 n : Nat.even n = negb (n `mod` 2 =? 1).
Proof.
  destruct (Nat.eqb_spec (n `mod` 2) 1) as [Hn | Hn]; cbn [negb].
  - apply not_true_is_false. intros [m ->]%Nat.even_spec. lia.
  - apply Nat.even_spec. exists (n `div` 2). lia.
Qed.

(** ** The builder *)

Lemma calc_step_pad i top rest empty :
  EmptyNodeHashes !! i = Some empty →
  calc_step i (top :: rest) =
    Ok (_hash_layer (pad empty top) :: pad empty top :: rest).
Proof.
  intros Hi. unfold calc_step, pad.
  rewrite (getitem_Some (top :: rest) 0 top) by done. cbn [bind].
  destruct (length top `mod` 2 =? 1); [| done].
  rewrite (getitem_Some _ _ _ Hi). cbn [bind].
  unfold update_tuple_item.
  destruct (decide (0 < length (top :: rest))) as [_ | Hn];
    [done | cbn [length] in Hn; lia].
Qed.

(** The loop of [calc_merkle_tree_from_leaves], from any round [s], puts
    the layers of [levels] in front of the tree, the last one first. *)
Lemma calc_loop d : ∀ s top rest,
  s + d ≤ TreeDepth →
  for_in (seq s d) calc_step (top :: rest) =
    Ok (reverse (levels (take d (drop s EmptyNodeHashes)) top) ++ rest).
Proof.
  induction d as [|d IH]; intros s top rest Hd; [done |].
  destruct (lookup_lt_is_Some_2 EmptyNodeHashes s) as [e He];
    [rewrite EmptyNodeHashes_length; lia |].
  cbn [seq for_in]. rewrite (calc_step_pad _ _ _ _ He). cbn [bind].
  rewrite IH by lia. rewrite (drop_S _ _ _ He), firstn_cons.
  cbn [levels]. by rewrite reverse_cons, <- app_assoc.
Qed.

Lemma calc_merkle_tree_from_leaves_levels leaves :
  0 < length leaves →
  calc_merkle_tree_from_leaves leaves =
    Ok (reverse (levels EmptyNodeHashes leaves)).
Proof.
  intros Hn. unfold calc_merkle_tree_from_leaves, range.
  destruct (Nat.eqb_spec (length leaves) 0) as [H0 | _]; [lia |].
  rewrite calc_loop by lia.
  by rewrite drop_0, <- EmptyNodeHashes_length, firstn_all, app_nil_r.
Qed.

Lemma calc_merkle_tree_from_leaves_nil :
  calc_merkle_tree_from_leaves [] = Raise ValueError.
Proof. reflexivity. Qed.

Lemma length_pos {A : Type} (l : list A) : l ≠ [] → 0 < length l.
Proof. destruct l; [done | cbn [length]; lia]. Qed.

(** Layer [TreeDepth - i] of the tree is level [i] above the leaves. *)
Lemma tree_lookup leaves i j :
  i + j = TreeDepth →
  reverse (levels EmptyNodeHashes leaves) !! j =
    levels EmptyNodeHashes leaves !! i.
Proof.
  intros Hij.
  rewrite reverse_lookup by (rewrite levels_length, EmptyNodeHashes_length; lia).
  rewrite levels_length, EmptyNodeHashes_length. f_equal. lia.
Qed.

Lemma tree_length leaves :
  length (reverse (levels EmptyNodeHashes leaves)) = S TreeDepth.
Proof. by rewrite length_reverse, levels_length, EmptyNodeHashes_length. Qed.

(** The number of digests in layer 0, for any number of leaves. *)
Lemma tree_top leaves (j : Z) :
  (2 ^ 32 * (j - 1) < Z.of_nat (length leaves) ≤ 2 ^ 32 * j)%Z →
  ∃ top,
    reverse (levels EmptyNodeHashes leaves) !! 0 = Some top
    ∧ Z.of_nat (length top) = j.
Proof.
  intros Hj.
  destruct (lookup_lt_is_Some_2 (levels EmptyNodeHashes leaves) TreeDepth)
    as [top Htop]; [rewrite levels_length, EmptyNodeHashes_length; lia |].
  exists top. split.
  - rewrite <- Htop. apply tree_lookup. lia.
  - rewrite <- EmptyNodeHashes_length in Htop.
    apply (levels_top_length _ _ _ j Htop).
    by rewrite EmptyNodeHashes_length.
Qed.

(** C4, as amended. For every non-empty sequence of at most [2^32]
    leaves, the tree has exactly 33 layers, root first and leaves last:
    layer 0 holds exactly one digest, and the last layer, layer 32,
    starts with the leaves that were given. *)
Theorem calc_merkle_tree_from_leaves_shape leaves :
  leaves ≠ [] →
  (Z.of_nat (length leaves) ≤ 2 ^ 32)%Z →
  ∃ tree root leaf_layer,
    calc_merkle_tree_from_leaves leaves = Ok tree
    ∧ length tree = 33
    ∧ tree !! 0 = Some [root]
    ∧ tree !! 32 = Some leaf_layer
    ∧ last tree = Some leaf_layer
    ∧ take (length leaves) leaf_layer = leaves.
Proof.
  intros Hne%length_pos Hle.
  destruct (tree_top leaves 1) as (top & Htop & Hone); [lia |].
  destruct top as [|root [|? ?]]; cbn [length] in Hone; try lia.
  exists (reverse (levels EmptyNodeHashes leaves)), root,
    (pad (replicate 32 x00) leaves).
  assert (head (levels EmptyNodeHashes leaves)
          = Some (pad (replicate 32 x00) leaves)) as Hhead
    by apply levels_head, EmptyNodeHashes_0.
  split; [by apply calc_merkle_tree_from_leaves_levels |].
  split; [apply tree_length |]. split; [exact Htop |].
  split; [| split].
  - rewrite (tree_lookup leaves 0 32) by reflexivity.
    by rewrite <- head_lookup.
  - by rewrite last_reverse.
  - unfold pad. destruct (_ =? _); [| apply firstn_all].
    by rewrite take_app_length.
Qed.

(** C5. The padding of the leaf layer stays in the tree: the last layer
    of the tree is the sequence of leaves itself when their number is
    even, and the leaves followed by one [EmptyNodeHashes[0]] when it is
    odd. *)
Theorem calc_merkle_tree_from_leaves_leaf_layer leaves :
  leaves ≠ [] →
  ∃ tree empty,
    calc_merkle_tree_from_leaves leaves = Ok tree
    ∧ EmptyNodeHashes !! 0 = Some empty
    ∧ last tree =
        Some (if Nat.even (length leaves) then leaves else leaves ++ [empty]).
Proof.
  intros Hne%length_pos.
  exists (reverse (levels EmptyNodeHashes leaves)), (replicate 32 x00).
  split; [by apply calc_merkle_tree_from_leaves_levels |].
  split; [apply EmptyNodeHashes_0 |].
  rewrite last_reverse, (levels_head _ _ _ EmptyNodeHashes_0).
  unfold pad. rewrite even_mod_2. by destruct (_ =? _).
Qed.

(** C8. [calc_merkle_tree_from_leaves] raises exactly when it is given no
    leaf, and [calc_merkle_tree] exactly when it is given no item; what
    is raised is the [ValueError] of the builder (the specification's
    EmptyInputError), and then there is no tree; in every other case a
    tree is returned. *)
Theorem calc_merkle_tree_empty_input leaves items :
  (calc_merkle_tree_from_leaves leaves = Raise ValueError ↔ leaves = [])
  ∧ ((∃ e, calc_merkle_tree_from_leaves leaves = Raise e) ↔ leaves = [])
  ∧ ((∃ tree, calc_merkle_tree_from_leaves leaves = Ok tree) ↔ leaves ≠ [])
  ∧ (calc_merkle_tree items = Raise ValueError ↔ items = [])
  ∧ ((∃ e, calc_merkle_tree items = Raise e) ↔ items = [])
  ∧ ((∃ tree, calc_merkle_tree items = Ok tree) ↔ items ≠ []).
Proof.
  assert (∀ ls : list Hash32,
    (calc_merkle_tree_from_leaves ls = Raise ValueError ↔ ls = [])
    ∧ ((∃ e, calc_merkle_tree_from_leaves ls = Raise e) ↔ ls = [])
    ∧ ((∃ tree, calc_merkle_tree_from_leaves ls = Ok tree) ↔ ls ≠ []))
    as Hcalc.
  { intros ls. destruct (decide (ls = [])) as [-> | Hne].
    - rewrite calc_merkle_tree_from_leaves_nil.
      split; [tauto |]. split; [split; [tauto | by eexists] |].
      split; [intros [t [=]] | tauto].
    - rewrite (calc_merkle_tree_from_leaves_levels ls (length_pos _ Hne)).
      split; [split; [discriminate | tauto] |].
      split; [split; [intros [e [=]] | tauto] |].
      split; [tauto | by eexists]. }
  split; [apply Hcalc |]. split; [apply Hcalc |]. split; [apply Hcalc |].
  unfold calc_merkle_tree.
  assert (hash_eth2 <$> items = [] ↔ items = []) as Hitems.
  { split; [apply fmap_nil_inv | by intros ->]. }
  rewrite <- Hitems.
  split; [apply Hcalc |]. split; apply Hcalc.
Qed.

(** C9. For three leaves [l0], [l1], [l2], layer 31 of the 33 layers,
    the one right above the leaves, holds exactly [H(l0 || l1)] and
    [H(l2 || EmptyNodeHashes[0])], in that order. *)
Theorem calc_merkle_tree_from_leaves_three l0 l1 l2 :
  ∃ tree empty,
    calc_merkle_tree_from_leaves [l0; l1; l2] = Ok tree
    ∧ length tree = 33
    ∧ EmptyNodeHashes !! 0 = Some empty
    ∧ tree !! 31 = Some [hash_eth2 (l0 ++ l1); hash_eth2 (l2 ++ empty)].
Proof.
  exists (reverse (levels EmptyNodeHashes [l0; l1; l2])), (replicate 32 x00).
  split; [apply calc_merkle_tree_from_leaves_levels; cbn [length]; lia |].
  split; [apply tree_length |].
  split; [apply EmptyNodeHashes_0 |].
  destruct (lookup_lt_is_Some_2 EmptyNodeHashes 1) as [e1 He1];
    [rewrite EmptyNodeHashes_length; unfold TreeDepth; lia |].
  rewrite (tree_lookup _ 1 31) by reflexivity.
  by rewrite (levels_lookup_1 _ _ _ _ EmptyNodeHashes_0 He1).
Qed.

(** C10. In the tree built from any non-empty sequence of leaves, every
    layer but layer 0 holds an even number of digests. *)
Theorem calc_merkle_tree_from_leaves_even_layers leaves :
  leaves ≠ [] →
  ∃ tree,
    calc_merkle_tree_from_leaves leaves = Ok tree
    ∧ ∀ j layer,
        j ≠ 0 → tree !! j = Some layer → Nat.even (length layer) = true.
Proof.
  intros Hne%length_pos.
  exists (reverse (levels EmptyNodeHashes leaves)).
  split; [by apply calc_merkle_tree_from_leaves_levels |].
  intros j layer Hj [Hlayer Hlt]%reverse_lookup_Some.
  rewrite levels_length in Hlayer, Hlt.
  apply levels_lookup_even in Hlayer; [| lia].
  rewrite even_mod_2, Hlayer. done.
Qed.

(** ** Proofs read from the tree *)

Lemma lxor_1 (a : Z) :
  (0 ≤ a)%Z → Z.lxor a 1 = (if Z.even a then a + 1 else a - 1)%Z.
Proof.
  intros Ha. destruct a as [|p|p]; [done | | lia].
  by destruct p.
Qed.

Lemma sibling_index_div k i :
  sibling_index (Z.of_nat k) i = sibling (k `div` 2 ^ i).
Proof.
  unfold sibling_index, sibling.
  rewrite Z.shiftr_div_pow2 by lia.
  change 2%Z with (Z.of_nat 2) at 1.
  rewrite <- Nat2Z.inj_pow, <- Nat2Z.inj_div.
  rewrite lxor_1, Zeven_mod by lia.
  destruct (Nat.eqb_spec ((k `div` 2 ^ i) `mod` 2) 0),
    (Z.eqb_spec (Z.of_nat (k `div` 2 ^ i) `mod` 2) 0); lia.
Qed.

Lemma siblings_length lvls : ∀ k n proof,
  siblings lvls k n = Some proof → length proof = n.
Proof.
  induction lvls as [|layer lvls IH]; intros k [|n] proof Hp;
    cbn [siblings] in Hp; try done.
  - by injection Hp as <-.
  - by injection Hp as <-.
  - destruct (layer !! sibling k); [| done].
    destruct (siblings lvls (k `div` 2) n) as [rest |] eqn:Hrest; [| done].
    injection Hp as <-. cbn [length]. f_equal. by apply (IH _ _ _ Hrest).
Qed.

(** Climbing from position [k] of the bottom layer along its siblings
    arrives at position [k >> depth] of the top layer. *)
Lemma levels_climb empties : ∀ layer k v,
  layer !! k = Some v →
  ∃ proof top,
    siblings (levels empties layer) k (length empties) = Some proof
    ∧ levels empties layer !! length empties = Some top
    ∧ top !! (k `div` 2 ^ length empties) = Some (climb (Z.of_nat k) proof v).
Proof.
  induction empties as [|e empties IH]; intros layer k v Hk.
  - exists [], layer. split; [done |]. split; [done |].
    cbn [length climb]. by rewrite Nat.pow_0_r, Nat.div_1_r.
  - pose proof (pad_lookup e _ _ _ Hk) as Hpk.
    pose proof (pad_length e layer) as Hlen.
    pose proof (lookup_lt_Some _ _ _ Hpk) as Hlt.
    destruct (lookup_lt_is_Some_2 (pad e layer) (sibling k)) as [s Hs].
    { unfold sibling. destruct (Nat.eqb_spec (k `mod` 2) 0); lia. }
    assert (_hash_layer (pad e layer) !! (k `div` 2) =
            Some (if negb (Z.of_nat k `mod` 2 =? 0)%Z
                  then hash_eth2 (s ++ v) else hash_eth2 (v ++ s)))
      as Hparent.
    { unfold sibling in Hs.
      destruct (Nat.eqb_spec (k `mod` 2) 0) as [Heven | Hodd],
        (Z.eqb_spec (Z.of_nat k `mod` 2) 0) as [Hz | Hz]; try lia;
        cbn [negb]; apply _hash_layer_lookup.
      - by replace (2 * (k `div` 2)) with k by lia.
      - by replace (2 * (k `div` 2) + 1) with (k + 1) by lia.
      - by replace (2 * (k `div` 2)) with (k - 1) by lia.
      - by replace (2 * (k `div` 2) + 1) with k by lia. }
    destruct (IH _ _ _ Hparent) as (proof & top & Hproof & Htop & Hclimb).
    exists (s :: proof), top.
    cbn [length levels siblings climb]. rewrite Hs, Hproof.
    split; [done |]. split; [by rewrite lookup_cons |].
    rewrite Nat.pow_succ_r', <- Nat.Div0.div_div.
    change 2%Z with (Z.of_nat 2). by rewrite <- Nat2Z.inj_div.
Qed.

(** With a single leaf, the siblings along the path of position 0 are
    the padding digests themselves. *)
Lemma siblings_single empties : ∀ v,
  siblings (levels empties [v]) 0 (length empties) = Some empties.
Proof.
  induction empties as [|e empties IH]; intros v; [done |].
  cbn [length levels]. change (pad e [v]) with [v; e].
  cbn [siblings _hash_layer]. change (0 `div` 2) with 0. by rewrite IH.
Qed.

(** Reading the siblings off the tree, from level [s] on, is [siblings]
    on the layers from level [s] upward. *)
Lemma read_siblings_levels tree lvls k d :
  (∀ i, i ≤ TreeDepth → tree !! (TreeDepth - i) = lvls !! i) →
  ∀ s proof,
    s + d ≤ TreeDepth →
    siblings (drop s lvls) (k `div` 2 ^ s) d = Some proof →
    read_siblings tree (Z.of_nat k) (seq s d) = Ok proof.
Proof.
  intros Htree. induction d as [|d IH]; intros s proof Hs Hp.
  - cbn [siblings] in Hp. by injection Hp as <-.
  - cbn [siblings] in Hp.
    destruct (drop s lvls) as [|layer lvls'] eqn:Hdrop; [done |].
    assert (lvls !! s = Some layer) as Hlayer.
    { rewrite <- (Nat.add_0_r s), <- lookup_drop. by rewrite Hdrop. }
    rewrite (drop_S _ _ _ Hlayer) in Hdrop. injection Hdrop as <-.
    destruct (layer !! sibling (k `div` 2 ^ s)) as [x |] eqn:Hx; [| done].
    rewrite Nat.Div0.div_div, (Nat.mul_comm _ 2), <- Nat.pow_succ_r' in Hp.
    destruct (siblings _ _ d) as [rest |] eqn:Hrest; [| done].
    injection Hp as <-.
    cbn [seq read_siblings].
    rewrite (getitem_Some tree (TreeDepth - s) layer)
      by (rewrite <- Hlayer; apply Htree; lia).
    cbn [bind]. rewrite sibling_index_div, (getitem_Some _ _ _ Hx).
    cbn [bind]. rewrite (IH (S s) rest); [done | lia | exact Hrest].
Qed.

(** Every entry of the proof that [read_siblings] returns is the digest
    at the sibling position of its layer. *)
Lemma read_siblings_lookup tree index levels : ∀ proof,
  read_siblings tree index levels = Ok proof →
  length proof = length levels
  ∧ ∀ n i, levels !! n = Some i →
      ∃ layer digest,
        tree !! (TreeDepth - i) = Some layer
        ∧ layer !! (Z.to_nat (Z.lxor (index ≫ Z.of_nat i) 1)) = Some digest
        ∧ proof !! n = Some digest.
Proof.
  induction levels as [|i levels IH]; intros proof Hp; cbn [read_siblings] in Hp.
  - injection Hp as <-. split; [done |]. intros n i Hn.
    by rewrite lookup_nil in Hn.
  - unfold getitem at 1 in Hp.
    destruct (tree !! (TreeDepth - i)) as [layer |] eqn:Hlayer; [| done].
    cbn [bind] in Hp. unfold getitem at 1 in Hp. unfold sibling_index in Hp.
    destruct (layer !! _) as [x |] eqn:Hx; [| done].
    cbn [bind] in Hp.
    destruct (read_siblings tree index levels) as [rest | ?]; [| done].
    cbn [bind] in Hp. injection Hp as <-.
    destruct (IH rest eq_refl) as [Hlen Hrest].
    split; [cbn [length]; by rewrite Hlen |].
    intros [|n] i' Hn.
    + injection Hn as <-. by exists layer, x.
    + rewrite lookup_cons in Hn. rewrite lookup_cons. by apply Hrest.
Qed.

(** What [get_merkle_proof] returns: 32 entries, entry [i] being
    [tree[32 - i][(index >> i) ^ 1]]. *)
Lemma get_merkle_proof_entries tree index proof :
  get_merkle_proof tree index = Ok proof →
  length proof = 32
  ∧ ∀ i, i < 32 →
      ∃ layer digest,
        tree !! (32 - i) = Some layer
        ∧ layer !! Z.to_nat (Z.lxor (index ≫ Z.of_nat i) 1) = Some digest
        ∧ proof !! i = Some digest.
Proof.
  intros Hread. apply read_siblings_lookup in Hread as [Hlen Hentries].
  unfold range in Hlen, Hentries.
  split; [by rewrite Hlen, length_seq |].
  intros i Hi. apply (Hentries i i). by apply lookup_seq_lt.
Qed.

(** ** Round trips *)

(** From leaf [k] of at most [2^32] leaves, the climb along the siblings
    of the built layers ends at the root. *)
Lemma tree_climb leaves k v :
  (Z.of_nat (length leaves) ≤ 2 ^ 32)%Z →
  leaves !! k = Some v →
  ∃ proof root,
    siblings (levels EmptyNodeHashes leaves) k TreeDepth = Some proof
    ∧ reverse (levels EmptyNodeHashes leaves) !! 0 = Some [root]
    ∧ climb (Z.of_nat k) proof v = root.
Proof.
  intros Hle Hk.
  destruct (levels_climb EmptyNodeHashes _ _ _ Hk)
    as (proof & top & Hproof & Htop & Hclimb).
  remember (k `div` 2 ^ length EmptyNodeHashes) as j eqn:Hj. clear Hj.
  rewrite EmptyNodeHashes_length in Hproof, Htop.
  pose proof (lookup_lt_Some _ _ _ Hk) as Hlt.
  destruct (tree_top leaves 1) as (top' & Htop' & Hone); [lia |].
  rewrite (tree_lookup leaves TreeDepth 0) in Htop' by lia.
  rewrite Htop in Htop'. injection Htop' as <-.
  destruct top as [|root [|? ?]]; cbn [length] in Hone; try lia.
  exists proof, root. split; [exact Hproof |]. split.
  - rewrite (tree_lookup leaves TreeDepth 0) by lia. exact Htop.
  - apply list_lookup_singleton_Some in Hclimb as [_ ->]. reflexivity.
Qed.

(** C1. For every non-empty sequence of at most [2^32] leaves and every
    position [k] in it, the tree is built, its layer 0 is the root alone,
    and the proof whose entry [i], for [i] from 0 to 31, is
    [tree[32 - i][(k >> i) ^ 1]] can be read from the tree and makes
    [verify_merkle_proof] return [true] for leaf [k] at index [k]. *)
Theorem proof_round_trip leaves k :
  leaves ≠ [] →
  (Z.of_nat (length leaves) ≤ 2 ^ 32)%Z →
  k < length leaves →
  ∃ tree root leaf proof,
    calc_merkle_tree_from_leaves leaves = Ok tree
    ∧ tree !! 0 = Some [root]
    ∧ leaves !! k = Some leaf
    ∧ get_merkle_proof tree (Z.of_nat k) = Ok proof
    ∧ length proof = 32
    ∧ (∀ i, i < 32 →
         ∃ layer digest,
           tree !! (32 - i) = Some layer
           ∧ layer !! Z.to_nat (Z.lxor (Z.of_nat k ≫ Z.of_nat i) 1)
               = Some digest
           ∧ proof !! i = Some digest)
    ∧ verify_merkle_proof root leaf (Z.of_nat k) proof = Ok true.
Proof.
  intros Hne%length_pos Hle Hk.
  destruct (lookup_lt_is_Some_2 leaves k Hk) as [leaf Hleaf].
  destruct (tree_climb _ _ _ Hle Hleaf) as (proof & root & Hsib & Hroot & Hclimb).
  assert (get_merkle_proof (reverse (levels EmptyNodeHashes leaves))
            (Z.of_nat k) = Ok proof) as Hread.
  { unfold get_merkle_proof, range.
    apply (read_siblings_levels _ (levels EmptyNodeHashes leaves)).
    - intros i Hi. apply tree_lookup. lia.
    - lia.
    - by rewrite drop_0, Nat.pow_0_r, Nat.div_1_r. }
  exists (reverse (levels EmptyNodeHashes leaves)), root, leaf, proof.
  split; [by apply calc_merkle_tree_from_leaves_levels |].
  split; [exact Hroot |]. split; [exact Hleaf |]. split; [exact Hread |].
  destruct (get_merkle_proof_entries _ _ _ Hread) as [Hlen Hentries].
  split; [exact Hlen |]. split; [exact Hentries |].
  rewrite (verify_merkle_proof_climb _ _ _ _ Hlen), Hclimb.
  f_equal. by apply bytes_eqb_eq.
Qed.

(** C2. For every digest [L], the root of the tree built from [L] alone
    is computed, and [L] verifies against it at index 0 with
    [EmptyNodeHashes] as the proof. *)
Theorem single_leaf_round_trip L :
  ∃ root,
    get_merkle_root [L] = Ok root
    ∧ verify_merkle_proof root L 0 EmptyNodeHashes = Ok true.
Proof.
  destruct (tree_climb [L] 0 L) as (proof & root & Hsib & Hroot & Hclimb);
    [cbn [length]; lia | reflexivity |].
  rewrite <- EmptyNodeHashes_length in Hsib.
  rewrite siblings_single in Hsib. injection Hsib as <-.
  exists root. split.
  - unfold get_merkle_root.
    rewrite calc_merkle_tree_from_leaves_levels by (cbn [length]; lia).
    cbn [bind]. unfold get_root. rewrite (getitem_Some _ _ _ Hroot).
    reflexivity.
  - rewrite (verify_merkle_proof_climb _ _ _ _ EmptyNodeHashes_length).
    change (Z.of_nat 0) with 0%Z in Hclimb. rewrite Hclimb.
    f_equal. by apply bytes_eqb_eq.
Qed.

(** * Further properties of the module *)

(** ** The verifier on any integer *)

(** X1. [verify_merkle_proof] checks neither the sign nor the size of the
    index: for every integer, negative ones included, and every proof, it
    does what it does for the index reduced modulo [2^32], which lies
    between 0 and [2^32 - 1]. *)
Theorem verify_merkle_proof_any_index root leaf index proof :
  verify_merkle_proof root leaf index proof =
    verify_merkle_proof root leaf (index `mod` 2 ^ 32) proof
  ∧ (0 ≤ index `mod` 2 ^ 32 < 2 ^ 32)%Z.
Proof.
  split; [| apply Z.mod_pos_bound; lia].
  unfold verify_merkle_proof.
  destruct (negb (length proof =? TreeDepth)); [reflexivity |].
  rewrite (for_in_ext (range TreeDepth) (verify_step index proof)
             (verify_step (index `mod` 2 ^ 32) proof)); [reflexivity |].
  intros i value Hi. apply verify_step_mod.
  unfold range in Hi. apply elem_of_seq in Hi. lia.
Qed.

(** ** Roots *)

Lemma get_root_singleton (tree : MerkleTree) root :
  tree !! 0 = Some [root] → get_root tree = Ok root.
Proof. intros Htree. unfold get_root. by rewrite (getitem_Some _ _ _ Htree). Qed.


Lemma get_merkle_root_levels leaves :
  0 < length leaves →
  get_merkle_root leaves = get_root (reverse (levels EmptyNodeHashes leaves)).
Proof.
  intros Hn. unfold get_merkle_root.
  by rewrite (calc_merkle_tree_from_leaves_levels _ Hn).
Qed.

Lemma get_merkle_root_few leaves :
  0 < length leaves →
  (Z.of_nat (length leaves) ≤ 2 ^ 32)%Z →
  ∃ root,
    reverse (levels EmptyNodeHashes leaves) !! 0 = Some [root]
    ∧ get_merkle_root leaves = Ok root.
Proof.
  intros Hn Hle.
  destruct (tree_top leaves 1) as (top & Htop & Hone); [lia |].
  destruct top as [|root [|? ?]]; cbn [length] in Hone; try lia.
  exists root. split; [exact Htop |].
  rewrite (get_merkle_root_levels _ Hn). by apply get_root_singleton.
Qed.

(** ** Trailing zero leaves *)

Lemma pad_replicate empty layer :
  pad empty layer = layer ++ replicate (length layer `mod` 2) empty.
Proof.
  unfold pad. destruct (Nat.eqb_spec (length layer `mod` 2) 1) as [-> | Hn].
  - done.
  - replace (length layer `mod` 2) with 0 by lia. by rewrite app_nil_r.
Qed.

Lemma _hash_layer_app l1 l2 :
  length l1 `mod` 2 = 0 →
  _hash_layer (l1 ++ l2) = _hash_layer l1 ++ _hash_layer l2.
Proof.
  induction l1 as [| a | a b l1 IH] using pairs_ind; intros Hlen.
  - done.
  - cbn [length] in Hlen. lia.
  - cbn [app _hash_layer]. rewrite IH; [done |].
    cbn [length] in Hlen. lia.
Qed.

Lemma _hash_layer_replicate n x :
  _hash_layer (replicate n x) = replicate (n `div` 2) (hash_eth2 (x ++ x)).
Proof.
  cut (_hash_layer (replicate n x) = replicate (n `div` 2) (hash_eth2 (x ++ x))
       ∧ _hash_layer (replicate (S n) x)
         = replicate (S n `div` 2) (hash_eth2 (x ++ x))); [tauto |].
  induction n as [|n [IH1 IH2]]; [by split |].
  split; [exact IH2 |].
  cbn [replicate _hash_layer]. rewrite IH1.
  replace (S (S n) `div` 2) with (S (n `div` 2)) by lia. done.
Qed.

(** Zero digests after the leaves become copies of the padding digest of
    the level, after the digests of the level, all the way up. *)
Lemma levels_trailing m : ∀ x layer c top,
  levels (take_iterate m (λ h, hash_eth2 (h ++ h)) x) layer !! m = Some top →
  ∃ c',
    levels (take_iterate m (λ h, hash_eth2 (h ++ h)) x)
      (layer ++ replicate c x) !! m
    = Some (top ++ replicate c' (Nat.iter m (λ h, hash_eth2 (h ++ h)) x)).
Proof.
  induction m as [|m IH]; intros x layer c top Htop.
  - cbn in Htop. injection Htop as <-. by exists c.
  - cbn [take_iterate levels] in Htop |- *.
    rewrite lookup_cons in Htop. rewrite lookup_cons.
    set (n := length layer) in *.
    set (d := (c + (n + c) `mod` 2 - n `mod` 2) `div` 2).
    assert (pad x (layer ++ replicate c x)
            = pad x layer ++ replicate (2 * d) x) as Hpad.
    { rewrite !pad_replicate, length_app, length_replicate, <- !app_assoc.
      fold n. rewrite <- !replicate_add. do 2 f_equal. lia. }
    rewrite Hpad, _hash_layer_app, _hash_layer_replicate
      by (rewrite pad_length; fold n; lia).
    replace ((2 * d) `div` 2) with d by lia.
    destruct (IH _ _ d _ Htop) as [c' Hc'].
    exists c'. rewrite Hc'. by rewrite Nat.iter_succ_r.
Qed.

Lemma Some_cons_inj {A : Type} (a b : A) (l l' : list A) :
  Some (a :: l) = Some (b :: l') → a = b.
Proof. by intros [= -> _]. Qed.

Lemma levels_top_trailing leaves c top :
  levels EmptyNodeHashes leaves !! TreeDepth = Some top →
  ∃ c',
    levels EmptyNodeHashes (leaves ++ replicate c (replicate 32 x00))
      !! TreeDepth
    = Some (top ++ replicate c'
              (Nat.iter TreeDepth (λ h, hash_eth2 (h ++ h)) (replicate 32 x00))).
Proof. apply levels_trailing. Qed.

Lemma levels_nil empties : levels empties [] !! length empties = Some [].
Proof. induction empties as [|e empties IH]; [done |]. exact IH. Qed.

Lemma levels_odd_padded empties layer e :
  empties !! 0 = Some e →
  length layer `mod` 2 = 1 →
  levels empties (layer ++ [e]) = levels empties layer.
Proof.
  destruct empties as [|x empties]; [done |]. intros [= ->] Hodd.
  cbn [levels]. unfold pad. rewrite length_app. cbn [length].
  destruct (Nat.eqb_spec ((length layer + 1) `mod` 2) 1) as [Hn | _]; [lia |].
  destruct (Nat.eqb_spec (length layer `mod` 2) 1) as [_ | Hn]; [done | lia].
Qed.

(** X2. Zero leaves at the end do not show in the root: for a non-empty
    sequence of leaves and any number of 32-byte zero leaves after it, at
    most [2^32] leaves in all, [get_merkle_root] returns the root it
    returns for the sequence alone. *)
Theorem get_merkle_root_trailing_zeros leaves c :
  leaves ≠ [] →
  (Z.of_nat (length leaves + c) ≤ 2 ^ 32)%Z →
  ∃ root,
    get_merkle_root leaves = Ok root
    ∧ get_merkle_root (leaves ++ replicate c (replicate 32 x00)) = Ok root.
Proof.
  intros Hne%length_pos Hle.
  destruct (get_merkle_root_few leaves) as (r1 & Ht1 & Hr1); [done | lia |].
  destruct (get_merkle_root_few (leaves ++ replicate c (replicate 32 x00)))
    as (r2 & Ht2 & Hr2);
    [rewrite length_app; lia | rewrite length_app, length_replicate; lia |].
  rewrite (tree_lookup _ TreeDepth 0) in Ht1 by lia.
  rewrite (tree_lookup _ TreeDepth 0) in Ht2 by lia.
  destruct (levels_top_trailing _ c _ Ht1) as [c' Hc'].
  rewrite Hc' in Ht2. cbn [app] in Ht2.
  assert (r1 = r2) as -> by congruence.
  exists r2. split; [exact Hr1 | exact Hr2].
Qed.

(** X3. A sequence with an odd number of leaves and the same sequence with
    one 32-byte zero leaf after it give the same tree, layer for layer. *)
Theorem calc_merkle_tree_from_leaves_odd_zero leaves :
  length leaves `mod` 2 = 1 →
  ∃ tree,
    calc_merkle_tree_from_leaves leaves = Ok tree
    ∧ calc_merkle_tree_from_leaves (leaves ++ [replicate 32 x00]) = Ok tree.
Proof.
  intros Hodd.
  exists (reverse (levels EmptyNodeHashes leaves)).
  split; [apply calc_merkle_tree_from_leaves_levels; lia |].
  rewrite calc_merkle_tree_from_leaves_levels by (rewrite length_app; lia).
  by rewrite (levels_odd_padded _ _ _ EmptyNodeHashes_0 Hodd).
Qed.

(** X4. The root of leaves that are all 32 zero bytes does not depend on
    how many there are, from 1 to [2^32]: it is the digest that would come
    next in the table, [H(EmptyNodeHashes[31] || EmptyNodeHashes[31])]. *)
Theorem get_merkle_root_all_zero n :
  0 < n →
  (Z.of_nat n ≤ 2 ^ 32)%Z →
  ∃ last_empty,
    EmptyNodeHashes !! 31 = Some last_empty
    ∧ get_merkle_root (replicate n (replicate 32 x00))
      = Ok (hash_eth2 (last_empty ++ last_empty)).
Proof.
  intros Hn Hle.
  exists (Nat.iter 31 (λ h, hash_eth2 (h ++ h)) (replicate 32 x00)).
  split; [apply take_iterate_lookup; unfold TreeDepth; lia |].
  destruct (get_merkle_root_few (replicate n (replicate 32 x00)))
    as (r & Ht & Hr); [by rewrite length_replicate .. |].
  rewrite Hr. f_equal.
  rewrite (tree_lookup _ TreeDepth 0) in Ht by lia.
  pose proof (levels_nil EmptyNodeHashes) as Hnil.
  rewrite EmptyNodeHashes_length in Hnil.
  destruct (levels_top_trailing _ n _ Hnil) as [c' Hc'].
  cbn [app] in Hc'. rewrite Hc' in Ht.
  destruct c' as [|c']; [discriminate Ht |].
  cbn [replicate] in Ht. apply Some_cons_inj in Ht. rewrite <- Ht.
  exact (Nat.iter_succ 31 _ _).
Qed.

(** ** The layers of the tree *)

Lemma levels_lookup_S empties : ∀ layer i,
  i < length empties →
  ∃ lower,
    levels empties layer !! i = Some lower
    ∧ levels empties layer !! S i
      = Some (match empties !! S i with
              | Some e => pad e (_hash_layer lower)
              | None => _hash_layer lower
              end).
Proof.
  induction empties as [|e empties IH]; intros layer i Hi;
    cbn [length] in Hi; [lia |].
  destruct i as [|i].
  - exists (pad e layer). split; [done |].
    cbn [levels]. rewrite !lookup_cons. by destruct empties.
  - destruct (IH (_hash_layer (pad e layer)) i) as (lower & Hl & Hu); [lia |].
    exists lower. cbn [levels]. by rewrite !lookup_cons.
Qed.

Lemma levels_lookup_length empties : ∀ layer i l (j : Z),
  levels empties layer !! i = Some l →
  (2 ^ Z.of_nat i * (j - 1) < Z.of_nat (length layer) ≤ 2 ^ Z.of_nat i * j)%Z →
  Z.of_nat (length l)
  = if decide (i < length empties) then (j + j `mod` 2)%Z else j.
Proof.
  induction empties as [|e empties IH]; intros layer i l j Hl Hj.
  - cbn [levels] in Hl. apply list_lookup_singleton_Some in Hl as [-> ->].
    cbn [length Z.of_nat] in *. destruct (decide _); lia.
  - cbn [levels] in Hl. destruct i as [|i].
    + injection Hl as <-. rewrite pad_length.
      cbn [length Z.of_nat] in *. destruct (decide _); lia.
    + rewrite lookup_cons in Hl. rewrite (IH _ _ _ j Hl).
      * cbn [length]. destruct (decide _), (decide _); lia.
      * rewrite _hash_layer_length, pad_length.
        rewrite Nat2Z.inj_succ, Z.pow_succ_r in Hj by lia.
        set (A := (2 ^ Z.of_nat i)%Z) in *.
        assert (0 < A)%Z by (apply Z.pow_pos_nonneg; lia).
        nia.
Qed.

Lemma ceiling_bounds (n i : Z) :
  (0 ≤ i)%Z →
  (2 ^ i * ((n + 2 ^ i - 1) `div` 2 ^ i - 1) < n
   ≤ 2 ^ i * ((n + 2 ^ i - 1) `div` 2 ^ i))%Z.
Proof.
  intros Hi. assert (0 < 2 ^ i)%Z as HA by (apply Z.pow_pos_nonneg; lia).
  pose proof (Z.div_mod (n + 2 ^ i - 1) (2 ^ i)) as Hdm.
  pose proof (Z.mod_pos_bound (n + 2 ^ i - 1) (2 ^ i) HA) as Hmb.
  set (A := (2 ^ i)%Z) in *. set (q := ((n + A - 1) `div` A)%Z) in *.
  set (r := ((n + A - 1) `mod` A)%Z) in *.
  assert (n + A - 1 = A * q + r)%Z as Heq by (apply Hdm; lia).
  clearbody q r A. nia.
Qed.

(** X5. The size of every layer: the layer [i] levels above the leaves,
    that is layer [32 - i] of the tree, holds [n / 2^i] digests, rounded
    up, for [n] leaves, and one more when that number is odd and the layer
    is not layer 0. *)
Theorem calc_merkle_tree_from_leaves_layer_sizes leaves :
  leaves ≠ [] →
  ∃ tree,
    calc_merkle_tree_from_leaves leaves = Ok tree
    ∧ ∀ i layer,
        i ≤ 32 →
        tree !! (32 - i) = Some layer →
        let c := ((Z.of_nat (length leaves) + 2 ^ Z.of_nat i - 1)
                  `div` 2 ^ Z.of_nat i)%Z in
        Z.of_nat (length layer) = if i <? 32 then (c + c `mod` 2)%Z else c.
Proof.
  intros Hne%length_pos.
  exists (reverse (levels EmptyNodeHashes leaves)).
  split; [by apply calc_merkle_tree_from_leaves_levels |].
  intros i layer Hi Hlayer c.
  rewrite (tree_lookup leaves i (32 - i)) in Hlayer by (unfold TreeDepth; lia).
  rewrite (levels_lookup_length _ _ _ _ c Hlayer) by (apply ceiling_bounds; lia).
  rewrite EmptyNodeHashes_length. unfold TreeDepth.
  destruct (decide (i < 32)), (Nat.ltb_spec i 32); lia.
Qed.

(** X6. Every layer of the tree but the last is computed from the layer
    below it: it is that layer hashed pair by pair, and for a layer other
    than layer 0 possibly one padding digest, the entry of
    [EmptyNodeHashes] for its level, after that. *)
Theorem calc_merkle_tree_from_leaves_parents leaves :
  leaves ≠ [] →
  ∃ tree,
    calc_merkle_tree_from_leaves leaves = Ok tree
    ∧ ∀ l,
        l < 32 →
        ∃ upper lower,
          tree !! l = Some upper
          ∧ tree !! S l = Some lower
          ∧ (upper = _hash_layer lower
             ∨ l ≠ 0
               ∧ ∃ empty,
                   EmptyNodeHashes !! (32 - l) = Some empty
                   ∧ upper = _hash_layer lower ++ [empty]).
Proof.
  intros Hne%length_pos.
  exists (reverse (levels EmptyNodeHashes leaves)).
  split; [by apply calc_merkle_tree_from_leaves_levels |].
  intros l Hl.
  destruct (levels_lookup_S EmptyNodeHashes leaves (31 - l))
    as (lower & Hlower & Hupper);
    [rewrite EmptyNodeHashes_length; unfold TreeDepth; lia |].
  replace (S (31 - l)) with (32 - l) in Hupper by lia.
  eexists _, lower.
  split; [rewrite (tree_lookup leaves (32 - l) l) by (unfold TreeDepth; lia);
          exact Hupper |].
  split; [by rewrite (tree_lookup leaves (31 - l) (S l))
            by (unfold TreeDepth; lia) |].
  destruct (EmptyNodeHashes !! (32 - l)) as [e |] eqn:He; [| by left].
  assert (l ≠ 0) as Hl0.
  { apply lookup_lt_Some in He. rewrite EmptyNodeHashes_length in He.
    unfold TreeDepth in He. lia. }
  unfold pad. destruct (_ =? _); [right | by left].
  split; [exact Hl0 |]. by exists e.
Qed.

(** ** Items *)

Lemma tree_round_trip leaves k leaf :
  (Z.of_nat (length leaves) ≤ 2 ^ 32)%Z →
  leaves !! k = Some leaf →
  ∃ root proof,
    reverse (levels EmptyNodeHashes leaves) !! 0 = Some [root]
    ∧ get_merkle_proof (reverse (levels EmptyNodeHashes leaves)) (Z.of_nat k)
      = Ok proof
    ∧ verify_merkle_proof root leaf (Z.of_nat k) proof = Ok true.
Proof.
  intros Hle Hleaf.
  destruct (tree_climb _ _ _ Hle Hleaf) as (proof & root & Hsib & Hroot & Hclimb).
  exists root, proof. split; [exact Hroot |].
  assert (get_merkle_proof (reverse (levels EmptyNodeHashes leaves))
            (Z.of_nat k) = Ok proof) as Hread.
  { unfold get_merkle_proof, range.
    apply (read_siblings_levels _ (levels EmptyNodeHashes leaves)).
    - intros i Hi. apply tree_lookup. lia.
    - lia.
    - by rewrite drop_0, Nat.pow_0_r, Nat.div_1_r. }
  split; [exact Hread |].
  rewrite (verify_merkle_proof_climb _ _ _ _ (siblings_length _ _ _ _ Hsib)).
  rewrite Hclimb. f_equal. by apply bytes_eqb_eq.
Qed.

(** X7. Round trip from the items: for a non-empty sequence of at most
    [2^32] items and a position [k] in it, [calc_merkle_tree] returns a
    tree, [get_merkle_root_from_items] its root, and the hash of item [k]
    verifies against that root at index [k] with the proof read from the
    tree. *)
Theorem item_round_trip items k :
  items ≠ [] →
  (Z.of_nat (length items) ≤ 2 ^ 32)%Z →
  k < length items →
  ∃ tree root item proof,
    calc_merkle_tree items = Ok tree
    ∧ get_merkle_root_from_items items = Ok root
    ∧ items !! k = Some item
    ∧ get_merkle_proof tree (Z.of_nat k) = Ok proof
    ∧ verify_merkle_proof root (hash_eth2 item) (Z.of_nat k) proof = Ok true.
Proof.
  intros Hne%length_pos Hle Hk.
  destruct (lookup_lt_is_Some_2 items k Hk) as [item Hitem].
  pose proof (list_lookup_fmap_Some_2 hash_eth2 _ _ _ Hitem) as Hleaf.
  rewrite <- (length_fmap hash_eth2) in Hne, Hle.
  destruct (tree_round_trip _ _ _ Hle Hleaf) as (root & proof & Hroot & Hp & Hv).
  exists (reverse (levels EmptyNodeHashes (hash_eth2 <$> items))),
    root, item, proof.
  assert (calc_merkle_tree items
          = Ok (reverse (levels EmptyNodeHashes (hash_eth2 <$> items))))
    as Htree by (by apply calc_merkle_tree_from_leaves_levels).
  split; [exact Htree |]. split.
  - unfold get_merkle_root_from_items. rewrite Htree. cbn [bind].
    by apply get_root_singleton.
  - split; [exact Hitem |]. split; [exact Hp | exact Hv].
Qed.

(** ** What a proof that verifies shows *)





(** ** What a root shows *)














(** ** Empty input, seen from the root functions *)

Lemma get_root_not_ValueError (tree : MerkleTree) :
  get_root tree ≠ Raise ValueError.
Proof.
  unfold get_root, getitem. destruct (tree !! 0) as [layer |]; [| done].
  cbn [bind]. destruct (length layer =? 1); [| done].
  by destruct (layer !! 0).
Qed.

Lemma get_merkle_root_ValueError leaves :
  get_merkle_root leaves = Raise ValueError ↔ leaves = [].
Proof.
  split; [| by intros ->].
  destruct leaves as [|leaf leaves]; [done |].
  rewrite get_merkle_root_levels by (cbn [length]; lia).
  intros Hroot. by apply get_root_not_ValueError in Hroot.
Qed.

(** X11. [get_merkle_root_from_items] is [get_merkle_root] on the hashes
    of the items, in order; each of the two raises the [ValueError] of the
    builder exactly when its input is empty, and returns a root when its
    input holds from 1 to [2^32] entries. *)
Theorem get_merkle_root_from_items_leaves items leaves :
  get_merkle_root_from_items items = get_merkle_root (hash_eth2 <$> items)
  ∧ (get_merkle_root_from_items items = Raise ValueError ↔ items = [])
  ∧ (get_merkle_root leaves = Raise ValueError ↔ leaves = [])
  ∧ (items ≠ [] ∧ (Z.of_nat (length items) ≤ 2 ^ 32)%Z →
     ∃ root, get_merkle_root_from_items items = Ok root)
  ∧ (leaves ≠ [] ∧ (Z.of_nat (length leaves) ≤ 2 ^ 32)%Z →
     ∃ root, get_merkle_root leaves = Ok root).
Proof.
  assert (get_merkle_root_from_items items
          = get_merkle_root (hash_eth2 <$> items)) as Hitems by reflexivity.
  split; [exact Hitems |]. rewrite Hitems.
  split.
  { rewrite get_merkle_root_ValueError.
    split; [apply fmap_nil_inv | by intros ->]. }
  split; [apply get_merkle_root_ValueError |].
  split.
  - intros [Hne%length_pos Hle].
    destruct (get_merkle_root_few (hash_eth2 <$> items)) as (root & _ & Hroot);
      [by rewrite length_fmap .. |].
    by exists root.
  - intros [Hne%length_pos Hle].
    destruct (get_merkle_root_few leaves) as (root & _ & Hroot); [done .. |].
    by exists root.
Qed.

End Sparse.

(** ** The definitions at work *)

Example demo_three_leaves_verify :
  (let* tree := calc_merkle_tree_from_leaves demo_hash demo_leaves in
   let* root := get_root tree in
   let* proof := get_merkle_proof tree 1 in
   verify_merkle_proof demo_hash root (replicate 32 x0b) 1 proof) = Ok true.
Proof. vm_compute. reflexivity. Qed.

Example demo_wrong_leaf :
  (let* tree := calc_merkle_tree_from_leaves demo_hash demo_leaves in
   let* root := get_root tree in
   let* proof := get_merkle_proof tree 1 in
   verify_merkle_proof demo_hash root (replicate 32 x0c) 1 proof) = Ok false.
Proof. vm_compute. reflexivity. Qed.

Example demo_short_proof :
  verify_merkle_proof demo_hash [] [] 0 [[]; []] = Raise AssertionError.
Proof. reflexivity. Qed.

(** ** The theorems at concrete inputs *)

Lemma demo_leaves_nonempty : demo_leaves ≠ [].
Proof. discriminate. Defined.

Lemma demo_leaves_few : (Z.of_nat (length demo_leaves) ≤ 2 ^ 32)%Z.
Proof. discriminate. Defined.

(** [proof_round_trip] for the third of the three leaves of [demo_leaves]. *)
Lemma proof_round_trip_demo :
  2 < length demo_leaves
  ∧ ∃ tree root leaf proof,
      calc_merkle_tree_from_leaves demo_hash demo_leaves = Ok tree
      ∧ tree !! 0 = Some [root]
      ∧ demo_leaves !! 2 = Some leaf
      ∧ get_merkle_proof tree (Z.of_nat 2) = Ok proof
      ∧ verify_merkle_proof demo_hash root leaf (Z.of_nat 2) proof = Ok true.
Proof.
  assert (2 < length demo_leaves) as Hk by (cbn [demo_leaves length]; lia).
  split; [exact Hk |].
  destruct (proof_round_trip demo_hash demo_leaves 2
              demo_leaves_nonempty demo_leaves_few Hk)
    as (tree & root & leaf & proof & Htree & Hroot & Hleaf & Hproof & _ & _ & Hv).
  exists tree, root, leaf, proof. repeat (split; [assumption |]). assumption.
Defined.

(** [calc_merkle_tree_from_leaves_shape] for [demo_leaves]. *)
Lemma calc_merkle_tree_from_leaves_shape_demo :
  ∃ tree root leaf_layer,
    calc_merkle_tree_from_leaves demo_hash demo_leaves = Ok tree
    ∧ length tree = 33
    ∧ tree !! 0 = Some [root]
    ∧ tree !! 32 = Some leaf_layer
    ∧ last tree = Some leaf_layer
    ∧ take (length demo_leaves) leaf_layer = demo_leaves.
Proof.
  exact (calc_merkle_tree_from_leaves_shape demo_hash demo_leaves
           demo_leaves_nonempty demo_leaves_few).
Defined.

Lemma zero_leaves_length n : length (zero_leaves n) = n.
Proof. apply length_replicate. Qed.

(** With [2^32 + 1] leaves, layer 0 of the tree that is returned holds two
    digests, not one. *)
Lemma calc_merkle_tree_from_leaves_shape_too_many :
  zero_leaves (Z.to_nat (2 ^ 32 + 1)) ≠ []
  ∧ ∃ tree layer0,
      calc_merkle_tree_from_leaves demo_hash (zero_leaves (Z.to_nat (2 ^ 32 + 1)))
        = Ok tree
      ∧ length tree = 33
      ∧ tree !! 0 = Some layer0
      ∧ length layer0 = 2.
Proof.
  pose proof (zero_leaves_length (Z.to_nat (2 ^ 32 + 1))) as Hlen.
  revert Hlen. generalize (zero_leaves (Z.to_nat (2 ^ 32 + 1))).
  intros leaves Hlen.
  assert (Z.of_nat (length leaves) = 2 ^ 32 + 1)%Z as Hz
    by (rewrite Hlen; apply Z2Nat.id; lia).
  clear Hlen. split.
  { intros ->. discriminate Hz. }
  destruct (tree_top demo_hash leaves 2) as (top & Htop & Htwo); [lia |].
  exists (reverse (levels demo_hash (EmptyNodeHashes demo_hash) leaves)), top.
  split; [apply calc_merkle_tree_from_leaves_levels; lia |].
  split; [apply tree_length |].
  split; [exact Htop | lia].
Qed.

(** [calc_merkle_tree_from_leaves_leaf_layer] for [demo_leaves]: three
    leaves, so one padding digest. *)
Lemma calc_merkle_tree_from_leaves_leaf_layer_demo :
  ∃ tree empty,
    calc_merkle_tree_from_leaves demo_hash demo_leaves = Ok tree
    ∧ EmptyNodeHashes demo_hash !! 0 = Some empty
    ∧ last tree =
        Some (if Nat.even (length demo_leaves)
              then demo_leaves else demo_leaves ++ [empty]).
Proof.
  exact (calc_merkle_tree_from_leaves_leaf_layer demo_hash demo_leaves
           demo_leaves_nonempty).
Defined.

(** [calc_merkle_tree_from_leaves_even_layers] for [demo_leaves]. *)
Lemma calc_merkle_tree_from_leaves_even_layers_demo :
  ∃ tree,
    calc_merkle_tree_from_leaves demo_hash demo_leaves = Ok tree
    ∧ ∀ j layer,
        j ≠ 0 → tree !! j = Some layer → Nat.even (length layer) = true.
Proof.
  exact (calc_merkle_tree_from_leaves_even_layers demo_hash demo_leaves
           demo_leaves_nonempty).
Defined.

(** [verify_merkle_proof_index_high_bits] for an index with bit 32 set. *)
Lemma verify_merkle_proof_index_high_bits_demo :
  verify_merkle_proof demo_hash (replicate 32 x00) (replicate 32 x0a)
    (2 ^ 32 + 5) (EmptyNodeHashes demo_hash)
  = verify_merkle_proof demo_hash (replicate 32 x00) (replicate 32 x0a)
      ((2 ^ 32 + 5) `mod` 2 ^ 32) (EmptyNodeHashes demo_hash)
  ∧ ∃ b, verify_merkle_proof demo_hash (replicate 32 x00) (replicate 32 x0a)
           (2 ^ 32 + 5) (EmptyNodeHashes demo_hash) = Ok b.
Proof.
  apply verify_merkle_proof_index_high_bits.
  - discriminate.
  - apply EmptyNodeHashes_length.
Defined.

(** [EmptyNodeHashes_table] at [i = 1]. *)
Lemma EmptyNodeHashes_table_demo :
  ∃ previous,
    EmptyNodeHashes demo_hash !! (1 - 1) = Some previous
    ∧ EmptyNodeHashes demo_hash !! 1 = Some (demo_hash (previous ++ previous)).
Proof.
  apply (proj2 (proj2 (EmptyNodeHashes_table demo_hash)) 1). lia.
Defined.

(** ** The further properties at concrete inputs *)




(** [verify_merkle_proof_any_index] at index [-1], which acts as
    [2^32 - 1]. *)
Lemma verify_merkle_proof_any_index_demo :
  (verify_merkle_proof demo_hash (replicate 32 x00) (replicate 32 x0a)
     (-1) (EmptyNodeHashes demo_hash)
   = verify_merkle_proof demo_hash (replicate 32 x00) (replicate 32 x0a)
       ((-1) `mod` 2 ^ 32) (EmptyNodeHashes demo_hash)
   ∧ (0 ≤ (-1) `mod` 2 ^ 32 < 2 ^ 32)%Z)
  ∧ ((-1) `mod` 2 ^ 32 = 2 ^ 32 - 1)%Z.
Proof.
  split; [apply verify_merkle_proof_any_index | reflexivity].
Defined.

(** [get_merkle_root_trailing_zeros] for [demo_leaves] and five zero
    leaves. *)
Lemma get_merkle_root_trailing_zeros_demo :
  ∃ root,
    get_merkle_root demo_hash demo_leaves = Ok root
    ∧ get_merkle_root demo_hash (demo_leaves ++ replicate 5 (replicate 32 x00))
      = Ok root.
Proof.
  apply get_merkle_root_trailing_zeros;
    [exact demo_leaves_nonempty | discriminate].
Defined.

(** [calc_merkle_tree_from_leaves_odd_zero] for the three leaves of
    [demo_leaves]. *)
Lemma calc_merkle_tree_from_leaves_odd_zero_demo :
  ∃ tree,
    calc_merkle_tree_from_leaves demo_hash demo_leaves = Ok tree
    ∧ calc_merkle_tree_from_leaves demo_hash (demo_leaves ++ [replicate 32 x00])
      = Ok tree.
Proof. apply calc_merkle_tree_from_leaves_odd_zero. reflexivity. Defined.

(** [get_merkle_root_all_zero] for seven zero leaves. *)
Lemma get_merkle_root_all_zero_demo :
  ∃ last_empty,
    EmptyNodeHashes demo_hash !! 31 = Some last_empty
    ∧ get_merkle_root demo_hash (replicate 7 (replicate 32 x00))
      = Ok (demo_hash (last_empty ++ last_empty)).
Proof.
  apply get_merkle_root_all_zero; [lia | discriminate].
Defined.

(** [calc_merkle_tree_from_leaves_layer_sizes] for [demo_leaves]. *)
Lemma calc_merkle_tree_from_leaves_layer_sizes_demo :
  ∃ tree,
    calc_merkle_tree_from_leaves demo_hash demo_leaves = Ok tree
    ∧ ∀ i layer,
        i ≤ 32 →
        tree !! (32 - i) = Some layer →
        let c := ((Z.of_nat (length demo_leaves) + 2 ^ Z.of_nat i - 1)
                  `div` 2 ^ Z.of_nat i)%Z in
        Z.of_nat (length layer) = if i <? 32 then (c + c `mod` 2)%Z else c.
Proof.
  exact (calc_merkle_tree_from_leaves_layer_sizes demo_hash demo_leaves
           demo_leaves_nonempty).
Defined.

(** [calc_merkle_tree_from_leaves_parents] for [demo_leaves]. *)
Lemma calc_merkle_tree_from_leaves_parents_demo :
  ∃ tree,
    calc_merkle_tree_from_leaves demo_hash demo_leaves = Ok tree
    ∧ ∀ l,
        l < 32 →
        ∃ upper lower,
          tree !! l = Some upper
          ∧ tree !! S l = Some lower
          ∧ (upper = _hash_layer demo_hash lower
             ∨ l ≠ 0
               ∧ ∃ empty,
                   EmptyNodeHashes demo_hash !! (32 - l) = Some empty
                   ∧ upper = _hash_layer demo_hash lower ++ [empty]).
Proof.
  exact (calc_merkle_tree_from_leaves_parents demo_hash demo_leaves
           demo_leaves_nonempty).
Defined.

(** [item_round_trip] for the third of the three items of [demo_items]. *)
Lemma item_round_trip_demo :
  ∃ tree root item proof,
    calc_merkle_tree demo_hash demo_items = Ok tree
    ∧ get_merkle_root_from_items demo_hash demo_items = Ok root
    ∧ demo_items !! 2 = Some item
    ∧ get_merkle_proof tree (Z.of_nat 2) = Ok proof
    ∧ verify_merkle_proof demo_hash root (demo_hash item) (Z.of_nat 2) proof
      = Ok true.
Proof.
  apply item_round_trip;
    [discriminate | discriminate | cbn [demo_items length]; lia].
Defined.



